(** * text2wkt: ODK geotrace text to Well-Known Text

    A shallow embedding of [src/text2wkt.py] (class
    [Text2WKTProcessingAlgorithm]): the geometry builder
    [WKT_linestring_from_nodes], the column resolution and row loop of
    [main], and the call [processAlgorithm] makes into [main].

    Modelling conventions.
    - A Python [str] is a [string]: a sequence of code points, one per
      [ascii], so the model covers the code points below 256.
    - [None] and [str] values that share a variable are a [pyval].
    - A raising expression is an [outcome]: [Return v] or [Raise e].
    - The CSV reader is the list of records it yields; the CSV writer is
      the list of records handed to [writerow], threaded as state. *)

From Stdlib Require Import ZArith Ascii.
From stdpp Require Import base tactics option list strings.

Local Open Scope Z_scope.

(** ** Exceptions and outcomes *)

Inductive exn : Set :=
| IndexError      (* sequence index out of range *)
| ValueError      (* int() of a bad literal, list.index() of a missing item *)
| StopIteration.  (* next() on an exhausted iterator *)

Inductive outcome (A : Type) : Type :=
| Return (a : A)
| Raise (e : exn).
Arguments Return {A} a.
Arguments Raise {A} e.

Global Instance outcome_ret : MRet outcome := @Return.
Global Instance outcome_bind : MBind outcome := λ A B f m,
  match m with
  | Return a => f a
  | Raise e => Raise e
  end.

(** Python values that may be [None]. *)
Inductive pyval : Set :=
| PNone
| PStr (s : string).

(** ** Sequence indexing

    [l[i]] and [l[i] = v] accept [-len(l) <= i < len(l)]; a negative index
    counts from the end, anything else raises [IndexError]. *)

Definition norm_index (len : nat) (i : Z) : option nat :=
  if bool_decide (0 ≤ i < Z.of_nat len) then Some (Z.to_nat i)
  else if bool_decide (- Z.of_nat len ≤ i < 0) then Some (Z.to_nat (Z.of_nat len + i))
  else None.

Definition getitem {A : Type} (l : list A) (i : Z) : outcome A :=
  match norm_index (length l) i with
  | Some k => match l !! k with Some x => Return x | None => Raise IndexError end
  | None => Raise IndexError
  end.

Definition setitem {A : Type} (l : list A) (i : Z) (v : A) : outcome (list A) :=
  match norm_index (length l) i with
  | Some k => Return (<[k:=v]> l)
  | None => Raise IndexError
  end.

(** [l.index(x)]: position of the first element equal to [x]. *)
Fixpoint list_index (l : list string) (x : string) : outcome Z :=
  match l with
  | [] => Raise ValueError
  | y :: l' =>
      if decide (y = x) then Return 0
      else i ← list_index l' x; Return (1 + i)
  end.

(** ** String primitives *)

(** [c.isspace()] on the code points below 256. *)
Definition isspace (c : ascii) : bool :=
  let n := nat_of_ascii c in
  ((9 <=? n) && (n <=? 13) || (28 <=? n) && (n <=? 31)
   || (n =? 32) || (n =? 133) || (n =? 160))%nat.

(** [s.split(sep)] for a one-character separator: the first piece and the
    pieces after it; there is always a first piece. *)
Fixpoint split_from (sep : ascii) (s : string) : string * list string :=
  match s with
  | EmptyString => (EmptyString, [])
  | String c s' =>
      let '(w, ws) := split_from sep s' in
      if decide (c = sep) then (EmptyString, w :: ws) else (String c w, ws)
  end.

Definition split (sep : ascii) (s : string) : list string :=
  let '(w, ws) := split_from sep s in w :: ws.

(** [s.lstrip()], [s.rstrip()], [s.strip()]. *)
Fixpoint lstrip (s : string) : string :=
  match s with
  | EmptyString => EmptyString
  | String c s' => if isspace c then lstrip s' else s
  end.

Fixpoint rstrip (s : string) : string :=
  match s with
  | EmptyString => EmptyString
  | String c s' =>
      match rstrip s' with
      | EmptyString => if isspace c then EmptyString else String c EmptyString
      | r => String c r
      end
  end.

Definition strip (s : string) : string := rstrip (lstrip s).

(** [s.split()] without a separator: the maximal runs of non-whitespace.
    [words_from] returns the run that starts at the head of [s] (empty when
    [s] starts with whitespace) and the runs after it. *)
Definition cons_word (w : string) (ws : list string) : list string :=
  match w with
  | EmptyString => ws
  | _ => w :: ws
  end.

Fixpoint words_from (s : string) : string * list string :=
  match s with
  | EmptyString => (EmptyString, [])
  | String c s' =>
      let '(w, ws) := words_from s' in
      if isspace c then (EmptyString, cons_word w ws) else (String c w, ws)
  end.

Definition split_ws (s : string) : list string :=
  let '(w, ws) := words_from s in cons_word w ws.

(** [sep.join(l)]. *)
Definition join (sep : string) (l : list string) : string := String.concat sep l.

(** Iterating a [str] yields its one-character strings. *)
Fixpoint chars (s : string) : list string :=
  match s with
  | EmptyString => []
  | String c s' => String c EmptyString :: chars s'
  end.

(** [for x in l: st = body(st, x)], stopping at the first exception. *)
Fixpoint for_each {A S : Type} (body : S → A → outcome S) (l : list A) (st : S)
  : outcome S :=
  match l with
  | [] => Return st
  | x :: l' => st' ← body st x; for_each body l' st'
  end.

(** ** The geometry builder *)

(** Body of the loop over [nodes]: [coord_pair_list] is the accumulator. *)
Definition node_step (coord_pair_list : list string) (node : string)
  : outcome (list string) :=
  let coords := split_ws (strip node) in
  if bool_decide (2 ≤ length coords)%nat then
    lon ← getitem coords 1;
    lat ← getitem coords 0;
    let coord_pair := lon +:+ " " +:+ lat in
    Return (coord_pair_list ++ [coord_pair])
  else Return coord_pair_list.

Definition WKT_linestring_from_nodes (node_string : string) : outcome pyval :=
  let nodes := split ";" node_string in
  match nodes with
  | _ :: _ =>
      let WKT_type := if bool_decide (1 < length nodes)%nat then "LINESTRING" else "POINT" in
      coord_pair_list ← for_each node_step nodes [];
      let line_coord_string := join ", " coord_pair_list in
      let linestring := WKT_type +:+ "(" +:+ line_coord_string +:+ ")" in
      Return (PStr linestring)
  | [] => Return PNone
  end.

(** ** [int(s)] for a [str]

    Base ten, on the code points below 256: optional surrounding
    whitespace, an optional sign, then decimal digits in which single
    underscores may separate digits. The whitespace accepted here is not
    that of [isspace]: the separators 28 to 31 are refused. The cap some
    interpreters put on the number of digits is not modelled. *)

Definition int_isspace (c : ascii) : bool :=
  let n := nat_of_ascii c in
  ((9 <=? n) && (n <=? 13) || (n =? 32) || (n =? 133) || (n =? 160))%nat.

Fixpoint int_lskip (s : string) : string :=
  match s with
  | EmptyString => EmptyString
  | String c s' => if int_isspace c then int_lskip s' else s
  end.

Fixpoint int_rskip (s : string) : string :=
  match s with
  | EmptyString => EmptyString
  | String c s' =>
      match int_rskip s' with
      | EmptyString => if int_isspace c then EmptyString else String c EmptyString
      | r => String c r
      end
  end.

Definition digit_value (c : ascii) : option Z :=
  let n := nat_of_ascii c in
  if ((48 <=? n) && (n <=? 57))%nat then Some (Z.of_nat n - 48) else None.

(** Digits after the first one; [us] tells that the previous character was
    an underscore, which must be followed by a digit. *)
Fixpoint int_digits (acc : Z) (us : bool) (s : string) : outcome Z :=
  match s with
  | EmptyString => if us then Raise ValueError else Return acc
  | String c s' =>
      match digit_value c with
      | Some d => int_digits (10 * acc + d) false s'
      | None =>
          if decide (c = "_"%char) then
            if us then Raise ValueError else int_digits acc true s'
          else Raise ValueError
      end
  end.

Definition int_unsigned (s : string) : outcome Z :=
  match s with
  | EmptyString => Raise ValueError
  | String c s' =>
      match digit_value c with
      | Some d => int_digits d false s'
      | None => Raise ValueError
      end
  end.

Definition int (s : string) : outcome Z :=
  match int_rskip (int_lskip s) with
  | String "+" r => int_unsigned r
  | String "-" r => n ← int_unsigned r; Return (- n)
  | r => int_unsigned r
  end.

(** ** The output file

    [writing A] is a computation that appends records to the output file
    and returns an [A] or raises; what was written before an exception
    stays written. *)

Abbreviation record := (list pyval).

Definition writing (A : Type) : Type := list record → outcome A * list record.

Global Instance writing_ret : MRet writing := λ A a out, (Return a, out).
Global Instance writing_bind : MBind writing := λ A B f m out,
  match m out with
  | (Return a, out') => f a out'
  | (Raise e, out') => (Raise e, out')
  end.

Definition lift {A : Type} (o : outcome A) : writing A := λ out, (o, out).

(** [writer.writerow(row)] *)
Definition writerow (row : record) : writing unit := λ out, (Return tt, out ++ [row]).

(** [next(reader)] *)
Definition next {A : Type} (reader : list A) : outcome (A * list A) :=
  match reader with
  | [] => Raise StopIteration
  | x :: reader' => Return (x, reader')
  end.

(** [for row in reader: body(row)] *)
Fixpoint for_rows {A : Type} (body : A → writing unit) (reader : list A) : writing unit :=
  match reader with
  | [] => mret tt
  | row :: reader' => body row ≫= λ _, for_rows body reader'
  end.

(** ** [main] *)

(** [int(column) - 1 if column else header.index(column_name)]: [column] is
    [None] or a [str], and is true when it is a non-empty [str]. *)
Definition colindex_of (column : option string) (column_name : string)
    (header : list string) : outcome Z :=
  match column with
  | Some (String _ _ as c) => n ← int c; Return (n - 1)
  | _ => list_index header column_name
  end.

(** Body of the loop over the data rows. The row is the list the reader
    yielded; [outrow] is that same list, so the assignment updates it in
    place and the updated row is what is written. *)
Definition row_step (colindex : Z) (row : list string) : writing unit :=
  field ← lift (getitem row colindex);
  let node_string := join "" (chars field) in
  wkt ← lift (WKT_linestring_from_nodes node_string);
  outrow ← lift (setitem (PStr <$> row) colindex wkt);
  writerow outrow.

(** [infile] is the sequence of records the reader yields for the input
    file. The result is the outcome of the call and the records written
    to the output file, which is opened empty. The delimiter only
    configures reader and writer; the message pushed to [feedback] after
    the files are closed is left out. *)
Definition main (infile : list (list string)) (column : option string)
    (column_name : string) : outcome unit * list record :=
  (hr ← lift (next infile);
   let '(header, reader) := hr in
   colindex ← lift (colindex_of column column_name header);
   _ ← writerow (PStr <$> header);
   for_rows (row_step colindex) reader) [].

(** [processAlgorithm] calls [main] with [column = None] and the column
    parameter as [column_name]. The check that the input layer exists,
    which precedes the call, is left out. *)
Definition processAlgorithm (infile : list (list string)) (column : string)
  : outcome unit * list record :=
  main infile None column.

(** The name of the output file, [of] in [main]:
    [output if output else '{}_{}.csv'.format(infile, '_results')], for a
    path [infile] and an [output] that is [None] or a [str]. *)
Definition outfile_name (infile : string) (output : option string) : string :=
  match output with
  | Some (String _ _ as o) => o
  | _ => infile +:+ "_" +:+ "_results" +:+ ".csv"
  end.

(** ** Vocabulary of the claims

    A segment is one piece of the NodeString between semicolons; its
    tokens are its whitespace-separated words; it is well-formed, and
    kept, when it has at least two tokens. *)

Definition tokens (node : string) : list string := split_ws (strip node).

Definition well_formed (node : string) : Prop := (2 ≤ length (tokens node))%nat.

Global Instance well_formed_dec node : Decision (well_formed node).
Proof. unfold well_formed. apply _. Defined.

Definition kept (nodes : list string) : list string := filter well_formed nodes.

(** The text between the parentheses for a list of coordinate pairs: the
    first pair, then each further pair after a comma and a space. *)
Definition pairs_text (pairs : list string) : string :=
  match pairs with
  | [] => ""
  | p :: ps => p +:+ foldr (λ q acc, ", " +:+ q +:+ acc) "" ps
  end.

(** Every character of [s] satisfies [P]. *)
Fixpoint all_chars (P : ascii → bool) (s : string) : Prop :=
  match s with
  | EmptyString => True
  | String c s' => P c = true ∧ all_chars P s'
  end.

Definition blank (s : string) : Prop := all_chars isspace s.
Definition solid (s : string) : Prop := s ≠ "" ∧ all_chars (λ c, negb (isspace c)) s.

(** [s] is empty or starts with whitespace. *)
Definition breaks (s : string) : Prop :=
  match s with
  | EmptyString => True
  | String c _ => isspace c = true
  end.

(** [lat] and [lon] are the first two whitespace-separated words of
    [node], as text of [node] itself. *)
Definition first_two (node lat lon : string) : Prop :=
  ∃ pre mid post,
    node = pre +:+ lat +:+ mid +:+ lon +:+ post
    ∧ blank pre ∧ solid lat ∧ blank mid ∧ mid ≠ "" ∧ solid lon ∧ breaks post.

(** The pair emitted for a kept segment. *)
Definition pair_of (node : string) : string :=
  match tokens node with
  | lat :: lon :: _ => lon +:+ " " +:+ lat
  | _ => ""
  end.

(** The kind written before the parenthesis. *)
Definition kind_of (nodes : list string) : string :=
  if bool_decide (1 < length nodes)%nat then "LINESTRING" else "POINT".

(** What [row_step] writes for [row]: the row with the field at the
    resolved position replaced by the text the builder returns for it. *)
Definition row_written (colindex : Z) (row : list string) (outrow : record) : Prop :=
  ∃ k field text,
    norm_index (length row) colindex = Some k
    ∧ row !! k = Some field
    ∧ WKT_linestring_from_nodes field = Return (PStr text)
    ∧ outrow = <[k:=PStr text]> (PStr <$> row).

(** Number of occurrences of [c] in [s]. *)
Fixpoint count_char (c : ascii) (s : string) : nat :=
  match s with
  | EmptyString => 0
  | String d s' => (if decide (d = c) then 1 else 0) + count_char c s'
  end.

(** The coordinate pairs of a NodeString, in order. *)
Definition coords (s : string) : list string := pair_of <$> kept (split ";" s).

(** [row] has a field at [colindex]. *)
Definition has_column (colindex : Z) (row : list string) : Prop :=
  - Z.of_nat (length row) ≤ colindex < Z.of_nat (length row).

(** ** Concrete runs *)

Example builder_point : WKT_linestring_from_nodes "1.5 2.5" = Return (PStr "POINT(2.5 1.5)").
Proof. reflexivity. Qed.

Example builder_linestring :
  WKT_linestring_from_nodes "1.0 2.0;3.0 4.0" = Return (PStr "LINESTRING(2.0 1.0, 4.0 3.0)").
Proof. reflexivity. Qed.

Example builder_trailing_semicolon :
  WKT_linestring_from_nodes "1.0 2.0;" = Return (PStr "LINESTRING(2.0 1.0)").
Proof. reflexivity. Qed.

Example primitives_run :
  split_ws "  a  b c " = ["a"; "b"; "c"] ∧ strip "  a b  " = "a b"
  ∧ split ";" "a;;b;" = ["a"; ""; "b"; ""] ∧ split ";" "" = [""].
Proof. repeat split; reflexivity. Qed.

Example int_run :
  int "2" = Return 2 ∧ int " -1_0 " = Return (-10) ∧ int "007" = Return 7
  ∧ int "" = Raise ValueError ∧ int "1__0" = Raise ValueError
  ∧ int "_1" = Raise ValueError ∧ int "1_" = Raise ValueError
  ∧ int "+ 5" = Raise ValueError ∧ int "trace" = Raise ValueError.
Proof. repeat split; reflexivity. Qed.

Example main_by_number :
  main [["id"; "trace"]; ["7"; "1.0 2.0;3.0 4.0"]; ["8"; ""]] (Some "2") ""
  = (Return tt, [[PStr "id"; PStr "trace"];
                 [PStr "7"; PStr "LINESTRING(2.0 1.0, 4.0 3.0)"];
                 [PStr "8"; PStr "POINT()"]]).
Proof. reflexivity. Qed.

Example main_last_column :
  main [["id"; "trace"]; ["7"; "1.0 2.0"]] (Some "0") ""
  = (Return tt, [[PStr "id"; PStr "trace"]; [PStr "7"; PStr "POINT(2.0 1.0)"]]).
Proof. reflexivity. Qed.

Example processAlgorithm_numeric_selector :
  processAlgorithm [["id"; "trace"]; ["7"; "1.0 2.0"]] "2" = (Raise ValueError, []).
Proof. reflexivity. Qed.

Example main_empty_input : main [] None "trace" = (Raise StopIteration, []).
Proof. reflexivity. Qed.

(** ** Facts about the primitives *)

Section strings.
Implicit Types (s w : string) (c : ascii).

Lemma app_empty_l s : "" +:+ s = s.
Proof. reflexivity. Qed.

Lemma app_cons c s w : String c s +:+ w = String c (s +:+ w).
Proof. reflexivity. Qed.

Lemma app_empty_r s : s +:+ "" = s.
Proof. induction s as [|c s IH]; [done|]. by rewrite app_cons, IH. Qed.

Lemma app_assoc_str s w u : (s +:+ w) +:+ u = s +:+ w +:+ u.
Proof. induction s as [|c s IH]; [done|]. by rewrite !app_cons, IH. Qed.

Lemma join_chars s : join "" (chars s) = s.
Proof.
  induction s as [|c s IH]; [done|].
  unfold join in *. simpl. destruct (chars s) as [|x xs] eqn:E.
  - destruct s; [done | discriminate].
  - by rewrite app_cons, app_empty_l, IH.
Qed.

(** *** [split] *)

Lemma split_not_nil sep s : split sep s ≠ [].
Proof. unfold split. by destruct (split_from sep s). Qed.

Lemma length_split_pos sep s : (1 ≤ length (split sep s))%nat.
Proof. unfold split. destruct (split_from sep s). simpl. lia. Qed.

Lemma split_cons sep c s :
  split sep (String c s) =
    if decide (c = sep) then "" :: split sep s
    else match split sep s with
         | w :: ws => String c w :: ws
         | [] => []
         end.
Proof.
  unfold split. simpl. destruct (split_from sep s) as [w ws].
  by destruct (decide (c = sep)).
Qed.

(** Joining the pieces with the separator gives the string back. *)
Lemma join_split sep s : join (String sep "") (split sep s) = s.
Proof.
  unfold join. induction s as [|c s IH]; [done|].
  rewrite split_cons. destruct (decide (c = sep)) as [->|Hne].
  - pose proof (split_not_nil sep s) as Hnil.
    destruct (split sep s) as [|w ws]; [done|].
    change (String.concat (String sep "") ("" :: w :: ws))
      with ("" +:+ String sep "" +:+ String.concat (String sep "") (w :: ws)).
    by rewrite IH.
  - pose proof (split_not_nil sep s) as Hnil.
    destruct (split sep s) as [|w ws]; [done|].
    destruct ws as [|w' ws].
    + simpl in *. by rewrite IH.
    + change (String.concat (String sep "") (String c w :: w' :: ws))
        with (String c w +:+ String sep "" +:+ String.concat (String sep "") (w' :: ws)).
      change (String.concat (String sep "") (w :: w' :: ws))
        with (w +:+ String sep "" +:+ String.concat (String sep "") (w' :: ws)) in IH.
      by rewrite app_cons, IH.
Qed.

(** No piece contains the separator. *)
Lemma split_pieces sep s :
  Forall (all_chars (λ c, bool_decide (c ≠ sep))) (split sep s).
Proof.
  induction s as [|c s IH]; [by repeat constructor|].
  rewrite split_cons. destruct (decide (c = sep)) as [->|Hne].
  - by constructor.
  - destruct (split sep s) as [|w ws]; [done|].
    inversion_clear IH. constructor; [|done].
    split; [by apply bool_decide_eq_true|done].
Qed.
End strings.

Section words.
Implicit Types (s w : string) (c : ascii).

Lemma split_ws_space c s : isspace c = true → split_ws (String c s) = split_ws s.
Proof.
  intros Hc. unfold split_ws. simpl. destruct (words_from s) as [w ws].
  by rewrite Hc.
Qed.

Lemma split_ws_lstrip s : split_ws (lstrip s) = split_ws s.
Proof.
  induction s as [|c s IH]; [done|]. simpl.
  destruct (isspace c) eqn:Hc; [|done]. by rewrite split_ws_space.
Qed.

Lemma words_from_rstrip s : words_from (rstrip s) = words_from s.
Proof.
  induction s as [|c s IH]; [done|]. simpl.
  destruct (rstrip s) as [|c' r] eqn:Hr.
  - rewrite <- IH. simpl. destruct (isspace c) eqn:Hc; simpl; by rewrite ?Hc.
  - rewrite <- IH. reflexivity.
Qed.

(** [strip] before [split] changes nothing. *)
Lemma split_ws_strip s : split_ws (strip s) = split_ws s.
Proof.
  unfold strip. transitivity (split_ws (lstrip s)); [|apply split_ws_lstrip].
  unfold split_ws. by rewrite words_from_rstrip.
Qed.

(** The run at the head of [s] and what follows it. *)
Lemma words_from_spec s w ws :
  words_from s = (w, ws) →
  all_chars (λ c, negb (isspace c)) w
  ∧ ∃ post, s = w +:+ post ∧ breaks post ∧ ws = split_ws post.
Proof.
  revert w ws. induction s as [|c s IH]; intros w ws; simpl.
  - intros [= <- <-]. split; [done|]. by exists "".
  - destruct (words_from s) as [w' ws'] eqn:E.
    destruct (IH _ _ eq_refl) as (Hw' & post & -> & Hpost & ->).
    destruct (isspace c) eqn:Hc; intros [= <- <-].
    + split; [done|]. exists (String c (w' +:+ post)).
      split_and!; [done|done|].
      rewrite split_ws_space by done. unfold split_ws. by rewrite E.
    + split; [simpl; by rewrite Hc|]. by exists post.
Qed.

(** The first word of [s], the whitespace before it and the rest. *)
Lemma split_ws_first s t ts :
  split_ws s = t :: ts →
  ∃ pre post, s = pre +:+ t +:+ post ∧ blank pre ∧ solid t ∧ breaks post
              ∧ ts = split_ws post.
Proof.
  induction s as [|c s IH]; [done|].
  destruct (isspace c) eqn:Hc.
  - rewrite split_ws_space by done. intros Hs.
    destruct (IH Hs) as (pre & post & -> & ? & ? & ? & ?).
    exists (String c pre), post. by split_and!.
  - unfold split_ws. destruct (words_from (String c s)) as [w ws] eqn:E.
    destruct (words_from_spec _ _ _ E) as (Hw & post & Hs & Hpost & ->).
    assert (∃ w', w = String c w') as [w' ->].
    { simpl in E. destruct (words_from s). rewrite Hc in E.
      injection E as <- _. by eexists. }
    simpl. intros [= <- <-]. exists "", post. by split_and!.
Qed.

(** A segment with at least two tokens starts, after whitespace, with its
    first token, whitespace and its second token. *)
Lemma tokens_first_two node lat lon rest :
  tokens node = lat :: lon :: rest → first_two node lat lon.
Proof.
  unfold tokens. rewrite split_ws_strip. intros H.
  destruct (split_ws_first _ _ _ H) as (pre & post & -> & Hpre & Hlat & Hpost & Hts).
  symmetry in Hts.
  destruct (split_ws_first _ _ _ Hts) as (mid & post' & -> & Hmid & Hlon & Hpost' & _).
  exists pre, mid, post'. split_and!; try done.
  intros ->. destruct Hlon as [Hne Hsolid].
  destruct lon as [|c lon]; [done|]. simpl in *.
  destruct Hsolid as [Hc _]. rewrite Hpost in Hc. done.
Qed.
End words.

Section indexing.
Context {A : Type}.
Implicit Types (l : list A) (i : Z) (k : nat).

Lemma norm_index_Some len i k :
  norm_index len i = Some k →
  (k < len)%nat
  ∧ (0 ≤ i ∧ i = Z.of_nat k ∨ i < 0 ∧ i = Z.of_nat k - Z.of_nat len).
Proof.
  unfold norm_index. repeat case_bool_decide; intros [= <-]; lia.
Qed.

Lemma norm_index_None len i :
  norm_index len i = None ↔ ¬ (- Z.of_nat len ≤ i < Z.of_nat len).
Proof.
  unfold norm_index. repeat case_bool_decide; split; try done; lia.
Qed.

Lemma norm_index_nonneg len k :
  (k < len)%nat → norm_index len (Z.of_nat k) = Some k.
Proof.
  intros Hk. unfold norm_index. rewrite bool_decide_eq_true_2 by lia.
  by rewrite Nat2Z.id.
Qed.

Lemma getitem_lookup l i k x :
  norm_index (length l) i = Some k → l !! k = Some x → getitem l i = Return x.
Proof. intros Hi Hk. unfold getitem. by rewrite Hi, Hk. Qed.

Lemma getitem_nat l k x : l !! k = Some x → getitem l (Z.of_nat k) = Return x.
Proof.
  intros Hk. eapply getitem_lookup; [|done].
  apply norm_index_nonneg. by eapply lookup_lt_Some.
Qed.

Lemma getitem_out_of_range l i :
  norm_index (length l) i = None → getitem l i = Raise IndexError.
Proof. intros Hi. unfold getitem. by rewrite Hi. Qed.
End indexing.

(** ** The geometry builder: the loop and the emitted text *)

Section builder.
Implicit Types (s node : string) (nodes acc : list string).

Lemma node_step_kept acc node lat lon rest :
  tokens node = lat :: lon :: rest →
  node_step acc node = Return (acc ++ [lon +:+ " " +:+ lat]).
Proof.
  intros Ht. unfold node_step. fold (tokens node). rewrite Ht.
  rewrite bool_decide_eq_true_2 by (simpl; lia).
  rewrite (getitem_nat _ 1 lon) by done.
  rewrite (getitem_nat _ 0 lat) by done. done.
Qed.

Lemma node_step_dropped acc node :
  ¬ well_formed node → node_step acc node = Return acc.
Proof.
  intros Hn. unfold node_step. fold (tokens node).
  by rewrite bool_decide_eq_false_2.
Qed.

Lemma well_formed_tokens node :
  well_formed node → ∃ lat lon rest, tokens node = lat :: lon :: rest.
Proof.
  unfold well_formed. destruct (tokens node) as [|lat [|lon rest]]; simpl; [lia|lia|].
  intros _. by exists lat, lon, rest.
Qed.

Lemma pair_of_tokens node lat lon rest :
  tokens node = lat :: lon :: rest → pair_of node = lon +:+ " " +:+ lat.
Proof. intros Ht. unfold pair_of. by rewrite Ht. Qed.

(** The loop appends, in order, the pair of each well-formed segment. *)
Lemma for_each_node_step nodes acc :
  for_each node_step nodes acc = Return (acc ++ (pair_of <$> kept nodes)).
Proof.
  revert acc. induction nodes as [|node nodes IH]; intros acc; simpl.
  - by rewrite app_nil_r.
  - unfold kept in *. destruct (decide (well_formed node)) as [Hw|Hw].
    + destruct (well_formed_tokens _ Hw) as (lat & lon & rest & Ht).
      rewrite (node_step_kept _ _ _ _ _ Ht), filter_cons_True by done.
      simpl. rewrite IH, (pair_of_tokens _ _ _ _ Ht).
      by rewrite <- app_assoc.
    + rewrite node_step_dropped, filter_cons_False by done. simpl. apply IH.
Qed.

Lemma join_pairs_text pairs : join ", " pairs = pairs_text pairs.
Proof.
  unfold join. induction pairs as [|p [|q ps] IH]; [done| |].
  - simpl. by rewrite app_empty_r.
  - change (String.concat ", " (p :: q :: ps))
      with (p +:+ ", " +:+ String.concat ", " (q :: ps)).
    rewrite IH. reflexivity.
Qed.

(** What the builder returns, for every input. *)
Lemma WKT_linestring_from_nodes_eq s :
  WKT_linestring_from_nodes s =
    Return (PStr (kind_of (split ";" s) +:+ "("
                  +:+ pairs_text (pair_of <$> kept (split ";" s)) +:+ ")")).
Proof.
  unfold WKT_linestring_from_nodes. pose proof (split_not_nil ";" s) as Hne.
  destruct (split ";" s) as [|node nodes] eqn:E; [done|].
  rewrite for_each_node_step. simpl app. cbn [mbind outcome_bind].
  by rewrite join_pairs_text.
Qed.

(** A NodeString with a single segment is that segment. *)
Lemma split_single s : length (split ";" s) = 1%nat → split ";" s = [s].
Proof.
  intros Hlen. pose proof (join_split ";" s) as Hj.
  destruct (split ";" s) as [|w [|w' ws]]; simplify_eq/=. done.
Qed.

Lemma length_kept nodes : (length (kept nodes) ≤ length nodes)%nat.
Proof. apply length_filter. Qed.

Lemma kept_pairs nodes :
  Forall2 (λ node pair, ∃ lat lon rest,
             tokens node = lat :: lon :: rest
             ∧ first_two node lat lon
             ∧ pair = lon +:+ " " +:+ lat)
          (kept nodes) (pair_of <$> kept nodes).
Proof.
  apply Forall2_fmap_r, Forall_Forall2_diag, Forall_forall.
  intros node Hin. unfold kept in Hin. apply list_elem_of_filter in Hin as [Hw _].
  destruct (well_formed_tokens _ Hw) as (lat & lon & rest & Ht).
  exists lat, lon, rest. split_and!; [done| |by eapply pair_of_tokens].
  by eapply tokens_first_two.
Qed.

Lemma kept_none nodes : Forall (λ node, ¬ well_formed node) nodes → kept nodes = [].
Proof.
  induction 1 as [|node nodes Hn _ IH]; [done|].
  unfold kept in *. by rewrite filter_cons_False.
Qed.
End builder.

(** ** Claims about the geometry builder *)

(** C1, counterexample: the NodeString ["1.0 2.0;"] keeps exactly one
    well-formed segment, and the builder returns a LINESTRING, not a
    POINT: the kind does not follow the number of kept segments. *)
Lemma C1_counterexample :
  ¬ ∀ s, length (kept (split ";" s)) = 1%nat →
         ∃ body, WKT_linestring_from_nodes s = Return (PStr ("POINT(" +:+ body +:+ ")")).
Proof.
  intros H. destruct (H "1.0 2.0;" eq_refl) as [body Hbody].
  vm_compute in Hbody. discriminate Hbody.
Qed.

(** C1, amended: the kind of the emitted WKT is determined by the number
    of semicolon-separated segments, before filtering. A NodeString with a
    single segment gives POINT(...), with exactly one coordinate pair when
    that segment is well-formed; a NodeString with two or more segments
    gives LINESTRING(...), which is the case whenever two or more segments
    are kept. *)
Theorem C1_kind_by_segment_count (s : string) :
  let nodes := split ";" s in
  (length nodes = 1%nat →
     WKT_linestring_from_nodes s
       = Return (PStr ("POINT(" +:+ pairs_text (pair_of <$> kept nodes) +:+ ")"))
     ∧ (well_formed s → ∃ lat lon,
          first_two s lat lon
          ∧ WKT_linestring_from_nodes s
            = Return (PStr ("POINT(" +:+ (lon +:+ " " +:+ lat) +:+ ")"))))
  ∧ ((2 ≤ length nodes)%nat →
     WKT_linestring_from_nodes s
       = Return (PStr ("LINESTRING(" +:+ pairs_text (pair_of <$> kept nodes) +:+ ")")))
  ∧ ((2 ≤ length (kept nodes))%nat →
     WKT_linestring_from_nodes s
       = Return (PStr ("LINESTRING(" +:+ pairs_text (pair_of <$> kept nodes) +:+ ")"))).
Proof.
  intros nodes. subst nodes.
  assert ((2 ≤ length (split ";" s))%nat →
          WKT_linestring_from_nodes s
          = Return (PStr ("LINESTRING("
                          +:+ pairs_text (pair_of <$> kept (split ";" s)) +:+ ")")))
    as Hmany.
  { intros Hlen. rewrite WKT_linestring_from_nodes_eq. unfold kind_of.
    by rewrite bool_decide_eq_true_2 by lia. }
  split_and!.
  - intros Hlen. rewrite WKT_linestring_from_nodes_eq. unfold kind_of.
    rewrite bool_decide_eq_false_2 by lia. split; [done|].
    intros Hw. destruct (well_formed_tokens _ Hw) as (lat & lon & rest & Ht).
    exists lat, lon. split; [by eapply tokens_first_two|].
    rewrite (split_single _ Hlen). unfold kept. rewrite filter_cons_True by done.
    rewrite filter_nil. simpl fmap. rewrite (pair_of_tokens _ _ _ _ Ht).
    unfold pairs_text. simpl foldr. by rewrite (app_empty_r (lon +:+ " " +:+ lat)).
  - exact Hmany.
  - intros Hkept. apply Hmany. pose proof (length_kept (split ";" s)). lia.
Qed.

(** Instances: a single well-formed segment, and one kept segment before a
    trailing semicolon. *)
Lemma C1_kind_by_segment_count_witness :
  WKT_linestring_from_nodes "1.5 2.5" = Return (PStr "POINT(2.5 1.5)")
  ∧ WKT_linestring_from_nodes "1.0 2.0;" = Return (PStr "LINESTRING(2.0 1.0)").
Proof.
  split.
  - exact (proj1 (proj1 (C1_kind_by_segment_count "1.5 2.5") eq_refl)).
  - refine (proj1 (proj2 (C1_kind_by_segment_count "1.0 2.0;")) _).
    vm_compute. apply le_n.
Defined.

(** C2, counterexample: every segment of ["12;34"] has a single token, and
    the builder returns the string "LINESTRING()", not [None]. *)
Lemma C2_counterexample :
  ¬ ∀ s, Forall (λ node, (length (tokens node) < 2)%nat) (split ";" s) →
         WKT_linestring_from_nodes s = Return PNone.
Proof.
  intros H. specialize (H "12;34"). vm_compute in H.
  assert (Hf : Forall (λ node, (length (tokens node) < 2)%nat) ["12"; "34"]).
  { repeat constructor. }
  specialize (H Hf). discriminate H.
Qed.

(** C2, amended: for every non-empty NodeString in which every
    semicolon-separated segment has fewer than 2 whitespace-separated
    tokens, the builder returns a WKT string with an empty coordinate
    list, "POINT()" for a single segment and "LINESTRING()" for several,
    rather than [None]. *)
Theorem C2_malformed_only_gives_empty_geometry (s : string) :
  s ≠ "" →
  Forall (λ node, (length (tokens node) < 2)%nat) (split ";" s) →
  WKT_linestring_from_nodes s
    = Return (PStr (if bool_decide (length (split ";" s) = 1%nat)
                    then "POINT()" else "LINESTRING()")).
Proof.
  intros _ Hall. rewrite WKT_linestring_from_nodes_eq, kept_none.
  - unfold kind_of. pose proof (length_split_pos ";" s).
    repeat case_bool_decide; try lia; done.
  - eapply Forall_impl; [exact Hall|]. unfold well_formed. intros node ?. lia.
Qed.

(** An instance: two segments of one token each. *)
Lemma C2_malformed_only_gives_empty_geometry_witness :
  WKT_linestring_from_nodes "12;34" = Return (PStr "LINESTRING()").
Proof.
  apply (C2_malformed_only_gives_empty_geometry "12;34").
  - discriminate.
  - vm_compute. repeat constructor.
Defined.

(** C3: every kept segment contributes one pair, made of its second token
    (longitude), a space and its first token (latitude), both as they
    stand in the segment; ["1.5 2.5"] gives "POINT(2.5 1.5)". *)
Theorem C3_axis_order_reversed :
  (∀ s, ∃ kind pairs,
     WKT_linestring_from_nodes s
       = Return (PStr (kind +:+ "(" +:+ join ", " pairs +:+ ")"))
     ∧ Forall2 (λ node pair, ∃ lat lon rest,
                  tokens node = lat :: lon :: rest
                  ∧ first_two node lat lon
                  ∧ pair = lon +:+ " " +:+ lat)
               (kept (split ";" s)) pairs)
  ∧ WKT_linestring_from_nodes "1.5 2.5" = Return (PStr "POINT(2.5 1.5)").
Proof.
  split; [|reflexivity].
  intros s. exists (kind_of (split ";" s)), (pair_of <$> kept (split ";" s)).
  split; [|apply kept_pairs].
  by rewrite WKT_linestring_from_nodes_eq, join_pairs_text.
Qed.

(** C4: for every input string the builder returns a string of the shape
    KIND(pairs), never [None] and never an exception: splitting on ';'
    never gives an empty list, so the [None] branch is not taken, and the
    empty NodeString gives "POINT()". *)
Theorem C4_never_none :
  (∀ s, split ";" s ≠ []
        ∧ WKT_linestring_from_nodes s ≠ Return PNone
        ∧ ∃ kind pairs,
            (kind = "POINT" ∨ kind = "LINESTRING")
            ∧ WKT_linestring_from_nodes s
              = Return (PStr (kind +:+ "(" +:+ join ", " pairs +:+ ")")))
  ∧ WKT_linestring_from_nodes "" = Return (PStr "POINT()").
Proof.
  split; [|reflexivity].
  intros s. rewrite WKT_linestring_from_nodes_eq. split_and!.
  - apply split_not_nil.
  - discriminate.
  - exists (kind_of (split ";" s)), (pair_of <$> kept (split ";" s)). split.
    + unfold kind_of. case_bool_decide; auto.
    + by rewrite join_pairs_text.
Qed.

(** C5: a NodeString with [k >= 2] well-formed segments gives
    LINESTRING(...) with exactly [k] pairs, one per kept segment in the
    order of the segments, each pair after the first preceded by a comma
    and a space, and the last one followed by the closing parenthesis. *)
Theorem C5_linestring_of_k_pairs (s : string) (k : nat) :
  length (kept (split ";" s)) = k →
  (2 ≤ k)%nat →
  ∃ p ps,
    p :: ps = pair_of <$> kept (split ";" s)
    ∧ length (p :: ps) = k
    ∧ kept (split ";" s) `sublist_of` split ";" s
    ∧ WKT_linestring_from_nodes s
      = Return (PStr ("LINESTRING(" +:+ p
                      +:+ foldr (λ q acc, ", " +:+ q +:+ acc) "" ps +:+ ")")).
Proof.
  intros Hk Hge. rewrite WKT_linestring_from_nodes_eq.
  pose proof (length_kept (split ";" s)) as Hle.
  destruct (pair_of <$> kept (split ";" s)) as [|p ps] eqn:E.
  { apply (f_equal length) in E. rewrite length_fmap in E. simpl in E. lia. }
  exists p, ps. split_and!; [done| | |].
  - by rewrite <- E, length_fmap.
  - apply sublist_filter.
  - unfold kind_of. rewrite bool_decide_eq_true_2 by lia.
    unfold pairs_text. f_equal. f_equal.
    change ("LINESTRING" +:+ "(" +:+ (p +:+ ?x) +:+ ")")
      with ("LINESTRING(" +:+ (p +:+ x) +:+ ")").
    by rewrite app_assoc_str.
Qed.

(** An instance: three segments, the middle one malformed. *)
Lemma C5_linestring_of_k_pairs_witness :
  ∃ p ps,
    p :: ps = pair_of <$> kept (split ";" "1.0 2.0;x;3.0 4.0")
    ∧ length (p :: ps) = 2%nat
    ∧ kept (split ";" "1.0 2.0;x;3.0 4.0") `sublist_of` split ";" "1.0 2.0;x;3.0 4.0"
    ∧ WKT_linestring_from_nodes "1.0 2.0;x;3.0 4.0"
      = Return (PStr ("LINESTRING(" +:+ p
                      +:+ foldr (λ q acc, ", " +:+ q +:+ acc) "" ps +:+ ")")).
Proof.
  apply (C5_linestring_of_k_pairs "1.0 2.0;x;3.0 4.0" 2).
  - reflexivity.
  - apply le_n.
Defined.

(** C6: a segment with fewer than 2 tokens leaves the coordinate list as
    it was, a kept segment adds the pair of its first two tokens whatever
    tokens follow, and no step raises, so that every NodeString gives a
    string whose pairs are those of the kept segments;
    ["1.0 2.0 99.0 0.5"] gives "POINT(2.0 1.0)". *)
Theorem C6_malformed_dropped_extra_ignored :
  (∀ acc node,
     ∃ acc', node_step acc node = Return acc'
             ∧ ((length (tokens node) < 2)%nat → acc' = acc)
             ∧ (∀ lat lon rest, tokens node = lat :: lon :: rest →
                                acc' = acc ++ [lon +:+ " " +:+ lat]))
  ∧ (∀ s, ∃ kind,
       WKT_linestring_from_nodes s
         = Return (PStr (kind +:+ "("
                         +:+ join ", " (pair_of <$> filter well_formed (split ";" s))
                         +:+ ")")))
  ∧ WKT_linestring_from_nodes "1.0 2.0 99.0 0.5" = Return (PStr "POINT(2.0 1.0)").
Proof.
  split_and!; [| |reflexivity].
  - intros acc node. destruct (decide (well_formed node)) as [Hw|Hw].
    + destruct (well_formed_tokens _ Hw) as (lat & lon & rest & Ht).
      exists (acc ++ [lon +:+ " " +:+ lat]). split_and!.
      * by eapply node_step_kept.
      * rewrite Ht. simpl. lia.
      * intros lat' lon' rest'. rewrite Ht. by intros [= -> -> ->].
    + exists acc. split_and!; [by apply node_step_dropped|done|].
      intros lat lon rest Ht. exfalso. apply Hw. unfold well_formed.
      rewrite Ht. simpl. lia.
  - intros s. exists (kind_of (split ";" s)).
    by rewrite WKT_linestring_from_nodes_eq, join_pairs_text.
Qed.

(** ** [main]: column resolution and the row loop *)

Section main_facts.
Implicit Types (header row : list string) (rows : list (list string)).
Implicit Types (out : list record) (colindex : Z).


Lemma list_index_missing header x : x ∉ header → list_index header x = Raise ValueError.
Proof.
  induction header as [|y header IH]; [done|].
  intros Hnot. apply not_elem_of_cons in Hnot as [Hne Hnot]. simpl.
  rewrite decide_False by done. by rewrite IH.
Qed.

Lemma list_index_Return header x i :
  list_index header x = Return i →
  ∃ k, i = Z.of_nat k ∧ header !! k = Some x
       ∧ ∀ j, (j < k)%nat → header !! j ≠ Some x.
Proof.
  revert i. induction header as [|y header IH]; intros i; [done|]. simpl.
  destruct (decide (y = x)) as [->|Hne].
  - intros [= <-]. exists 0%nat. split_and!; [done|done|]. intros j Hj. lia.
  - destruct (list_index header x) as [i'|e] eqn:E; [|done].
    cbn. intros [= <-]. destruct (IH _ eq_refl) as (k & -> & Hk & Hfirst).
    exists (S k). split_and!; [lia|done|].
    intros [|j] Hj; [simpl; congruence|]. apply Hfirst. lia.
Qed.

Lemma main_cons header rows column column_name :
  main (header :: rows) column column_name =
    match colindex_of column column_name header with
    | Return colindex => for_rows (row_step colindex) rows [PStr <$> header]
    | Raise e => (Raise e, [])
    end.
Proof.
  unfold main, mbind, writing_bind, lift, next, writerow.
  by destruct (colindex_of column column_name header).
Qed.

Lemma row_step_in_range colindex row out k :
  norm_index (length row) colindex = Some k →
  ∃ outrow, row_written colindex row outrow
            ∧ row_step colindex row out = (Return tt, out ++ [outrow]).
Proof.
  intros Hk. destruct (norm_index_Some _ _ _ Hk) as [Hlt _].
  destruct (lookup_lt_is_Some_2 row k Hlt) as [field Hfield].
  destruct (WKT_linestring_from_nodes field) as [wkt|e] eqn:Hwkt;
    rewrite WKT_linestring_from_nodes_eq in Hwkt; [|done].
  injection Hwkt as <-.
  eexists. split.
  - exists k, field. eexists. split_and!; [done|done| |done].
    apply WKT_linestring_from_nodes_eq.
  - unfold row_step, mbind, writing_bind, lift, writerow.
    rewrite (getitem_lookup _ _ _ _ Hk Hfield), join_chars.
    rewrite WKT_linestring_from_nodes_eq. unfold setitem.
    by rewrite length_fmap, Hk.
Qed.

Lemma row_step_out_of_range colindex row out :
  norm_index (length row) colindex = None →
  row_step colindex row out = (Raise IndexError, out).
Proof.
  intros Hk. unfold row_step, mbind, writing_bind, lift.
  by rewrite getitem_out_of_range.
Qed.

(** A run of rows that all have the resolved column is written whole. *)
Lemma for_rows_in_range colindex rows out :
  Forall (λ row, is_Some (norm_index (length row) colindex)) rows →
  ∃ outrows, Forall2 (row_written colindex) rows outrows
             ∧ for_rows (row_step colindex) rows out = (Return tt, out ++ outrows).
Proof.
  intros Hall. revert out. induction Hall as [|row rows [k Hk] _ IH]; intros out.
  - exists []. split; [constructor|]. simpl. by rewrite app_nil_r.
  - destruct (row_step_in_range colindex row out k Hk) as (outrow & Hrow & Hstep).
    destruct (IH (out ++ [outrow])) as (outrows & Hrows & Hloop).
    exists (outrow :: outrows). split; [by constructor|].
    simpl. unfold mbind, writing_bind at 1. rewrite Hstep, Hloop.
    by rewrite <- app_assoc.
Qed.

(** The loop stops at the first row without the resolved column. *)
Lemma for_rows_short_row colindex pre row post out :
  Forall (λ row, is_Some (norm_index (length row) colindex)) pre →
  norm_index (length row) colindex = None →
  ∃ outrows, Forall2 (row_written colindex) pre outrows
             ∧ for_rows (row_step colindex) (pre ++ row :: post) out
               = (Raise IndexError, out ++ outrows).
Proof.
  intros Hall Hrow. revert out. induction Hall as [|r pre [k Hk] _ IH]; intros out.
  - exists []. split; [constructor|]. simpl. unfold mbind, writing_bind at 1.
    by rewrite row_step_out_of_range, app_nil_r.
  - destruct (row_step_in_range colindex r out k Hk) as (outrow & Hr & Hstep).
    destruct (IH (out ++ [outrow])) as (outrows & Hrows & Hloop).
    exists (outrow :: outrows). split; [by constructor|].
    simpl. unfold mbind, writing_bind at 1. rewrite Hstep, Hloop.
    by rewrite <- app_assoc.
Qed.

(** The written row has the fields of the row read, except at the
    resolved position. *)
Lemma row_written_frame colindex row outrow :
  row_written colindex row outrow →
  length outrow = length row
  ∧ ∃ k field text,
      norm_index (length row) colindex = Some k
      ∧ row !! k = Some field
      ∧ WKT_linestring_from_nodes field = Return (PStr text)
      ∧ outrow !! k = Some (PStr text)
      ∧ ∀ j, j ≠ k → outrow !! j = PStr <$> row !! j.
Proof.
  intros (k & field & text & Hk & Hfield & Hwkt & ->).
  split; [by rewrite length_insert, length_fmap|].
  exists k, field, text. split_and!; try done.
  - apply list_lookup_insert_eq. rewrite length_fmap. by eapply lookup_lt_Some.
  - intros j Hj. by rewrite list_lookup_insert_ne, list_lookup_fmap.
Qed.
End main_facts.

(** ** Claims about the column resolver and the row loop *)




(** C8, counterexample: with header ["id"; "trace"], column "3" and the
    single data row ["7"; "1 2"] of two fields, the output holds the
    header and no data row: the index 2 is outside the row and the row
    indexing raises before the row is written. *)
Lemma C8_counterexample :
  ¬ ∀ (header : list string) (rows : list (list string))
      (column : option string) (column_name : string) (C : nat),
      Forall (λ row, length row = C) rows →
      ∃ outrows,
        (main (header :: rows) column column_name).2 = (PStr <$> header) :: outrows
        ∧ length outrows = length rows.
Proof.
  intros H.
  destruct (H ["id"; "trace"] [["7"; "1 2"]] (Some "3") "" 2%nat)
    as (outrows & Hout & Hlen); [repeat constructor|].
  vm_compute in Hout. injection Hout as <-. discriminate Hlen.
Qed.

(** C8, amended: when the column resolves to an index [colindex] that
    names a field of the [C]-field rows ([-C <= colindex < C]), the output
    is the unmodified header followed by one row per data row, in the same
    order; each written row has [C] fields, holds the builder's text at
    the resolved position [k] and the fields of the row read everywhere
    else. *)
Theorem C8_shape_preserved (header : list string) (rows : list (list string))
    (column : option string) (column_name : string) (colindex : Z) (C k : nat) :
  colindex_of column column_name header = Return colindex →
  Forall (λ row, length row = C) rows →
  norm_index C colindex = Some k →
  ∃ outrows,
    main (header :: rows) column column_name
      = (Return tt, (PStr <$> header) :: outrows)
    ∧ length outrows = length rows
    ∧ Forall2 (λ row outrow,
         length outrow = C
         ∧ (∀ j, j ≠ k → outrow !! j = PStr <$> row !! j)
         ∧ ∃ field text,
             row !! k = Some field
             ∧ WKT_linestring_from_nodes field = Return (PStr text)
             ∧ outrow !! k = Some (PStr text))
       rows outrows.
Proof.
  intros Hcol Hlen Hk. rewrite main_cons, Hcol.
  destruct (for_rows_in_range colindex rows [PStr <$> header]) as (outrows & Hrows & Hloop).
  { eapply Forall_impl; [exact Hlen|]. intros row ->. by rewrite Hk. }
  exists outrows. split_and!; [done|symmetry; by eapply Forall2_length|].
  clear Hloop. induction Hrows as [|row outrow rows outrows Hrow _ IH]; [constructor|].
  inversion_clear Hlen as [|? ? Hrowlen Hlen'].
  constructor; [|by apply IH].
  destruct (row_written_frame _ _ _ Hrow) as (Hl & k' & field & text & Hk' & ? & ? & ? & ?).
  rewrite Hrowlen in Hk', Hl. assert (k' = k) as -> by congruence.
  split_and!; [done|done|]. by exists field, text.
Qed.

(** An instance: two data rows of two fields, column resolved by name. *)
Lemma C8_shape_preserved_witness :
  ∃ outrows,
    main [["id"; "trace"]; ["7"; "1.0 2.0;3.0 4.0"]; ["8"; "5 6"]] None "trace"
      = (Return tt, (PStr <$> ["id"; "trace"]) :: outrows)
    ∧ length outrows = 2%nat
    ∧ Forall2 (λ row outrow,
         length outrow = 2%nat
         ∧ (∀ j, j ≠ 1%nat → outrow !! j = PStr <$> row !! j)
         ∧ ∃ field text,
             row !! 1%nat = Some field
             ∧ WKT_linestring_from_nodes field = Return (PStr text)
             ∧ outrow !! 1%nat = Some (PStr text))
       [["7"; "1.0 2.0;3.0 4.0"]; ["8"; "5 6"]] outrows.
Proof.
  apply (C8_shape_preserved ["id"; "trace"] [["7"; "1.0 2.0;3.0 4.0"]; ["8"; "5 6"]]
           None "trace" 1 2 1).
  - reflexivity.
  - repeat constructor.
  - reflexivity.
Defined.

(** C9, counterexample: with header ["id"; "trace"], column "2" and the
    one-field data row ["7"], [main] ends with the [IndexError] of the row
    indexing. *)
Lemma C9_counterexample :
  ¬ ∀ header rows column column_name,
      (main (header :: rows) column column_name).1 ≠ Raise IndexError.
Proof.
  intros H. by apply (H ["id"; "trace"] [["7"]] (Some "2") "").
Qed.

(** C9, amended: for a data row with fewer fields than the resolved column
    index requires, [main] applies no policy: the [IndexError] of the row
    indexing leaves [main] unhandled. The header and the rows before the
    short row have been written by then, and neither the short row nor
    any row after it is written. *)
Theorem C9_short_row_raises (header : list string) (pre : list (list string))
    (row : list string) (post : list (list string))
    (column : option string) (column_name : string) (colindex : Z) :
  colindex_of column column_name header = Return colindex →
  Forall (λ r, - Z.of_nat (length r) ≤ colindex < Z.of_nat (length r)) pre →
  ¬ (- Z.of_nat (length row) ≤ colindex < Z.of_nat (length row)) →
  ∃ outrows,
    main (header :: pre ++ row :: post) column column_name
      = (Raise IndexError, (PStr <$> header) :: outrows)
    ∧ Forall2 (row_written colindex) pre outrows.
Proof.
  intros Hcol Hpre Hrow. rewrite main_cons, Hcol.
  destruct (for_rows_short_row colindex pre row post [PStr <$> header])
    as (outrows & Hrows & Hloop).
  - eapply Forall_impl; [exact Hpre|]. intros r Hr. simpl in Hr.
    destruct (norm_index (length r) colindex) eqn:E; [done|].
    by apply norm_index_None in E.
  - by apply norm_index_None.
  - by exists outrows.
Qed.

(** An instance: a full row, a one-field row, then another full row. *)
Lemma C9_short_row_raises_witness :
  ∃ outrows,
    main (["id"; "trace"] :: [["7"; "1 2"]] ++ ["8"] :: [["9"; "3 4"]]) (Some "2") ""
      = (Raise IndexError, (PStr <$> ["id"; "trace"]) :: outrows)
    ∧ Forall2 (row_written 1) [["7"; "1 2"]] outrows.
Proof.
  apply (C9_short_row_raises ["id"; "trace"] [["7"; "1 2"]] ["8"] [["9"; "3 4"]]
           (Some "2") "" 1).
  - reflexivity.
  - constructor; [simpl; lia|constructor].
  - simpl. lia.
Defined.

(** C10: when the column is resolved by name and the name matches no
    header field, [main] ends with the [ValueError] of the failed lookup
    and the output is empty: the lookup precedes the writing of the
    header, so no data row is read or written. *)
Theorem C10_column_not_found (header : list string) (rows : list (list string))
    (column : option string) (column_name : string) :
  column = None ∨ column = Some "" →
  column_name ∉ header →
  colindex_of column column_name header = Raise ValueError
  ∧ main (header :: rows) column column_name = (Raise ValueError, []).
Proof.
  intros Hcol Hnot.
  assert (colindex_of column column_name header = Raise ValueError) as Hres.
  { transitivity (list_index header column_name);
      [by destruct Hcol as [-> | ->]|by apply list_index_missing]. }
  split; [done|]. by rewrite main_cons, Hres.
Qed.

(** An instance: the name differs from a header field by case only. *)
Lemma C10_column_not_found_witness :
  colindex_of None "Trace" ["id"; "trace"] = Raise ValueError
  ∧ main (["id"; "trace"] :: [["7"; "1 2"]]) None "Trace" = (Raise ValueError, []).
Proof.
  apply (C10_column_not_found ["id"; "trace"] [["7"; "1 2"]] None "Trace").
  - left. reflexivity.
  - intros Hin. inversion Hin as [|? ? ? Hin']; subst.
    inversion Hin' as [|? ? ? Hin'']; subst. inversion Hin''.
Defined.

(** ** Further properties of the geometry builder *)

Section segments.
Implicit Types (s w : string) (c sep : ascii).

Lemma length_split sep s : length (split sep s) = S (count_char sep s).
Proof.
  induction s as [|c s IH]; [done|].
  rewrite split_cons. simpl. pose proof (split_not_nil sep s) as Hne.
  destruct (decide (c = sep)); [simpl; by rewrite IH|].
  destruct (split sep s) as [|w ws]; [done|]. simpl in *. lia.
Qed.

Lemma split_no_sep sep s : Forall (λ w, count_char sep w = 0%nat) (split sep s).
Proof.
  induction s as [|c s IH]; [by repeat constructor|].
  rewrite split_cons. destruct (decide (c = sep)) as [->|Hne]; [by constructor|].
  destruct (split sep s) as [|w ws]; [done|].
  inversion_clear IH as [|? ? Hw Hws]. constructor; [|done].
  simpl. by rewrite decide_False, Hw.
Qed.

Lemma split_app sep s1 s2 :
  split sep (s1 +:+ String sep s2) = split sep s1 ++ split sep s2.
Proof.
  induction s1 as [|c s1 IH].
  - rewrite app_empty_l, split_cons, decide_True by done. done.
  - rewrite app_cons, !split_cons, IH.
    destruct (decide (c = sep)); [done|].
    pose proof (split_not_nil sep s1) as Hne.
    by destruct (split sep s1) as [|w ws].
Qed.

Lemma coords_app s1 s2 : coords (s1 +:+ ";" +:+ s2) = coords s1 ++ coords s2.
Proof.
  unfold coords, kept. change (";" +:+ s2) with (String ";" s2).
  by rewrite split_app, filter_app, fmap_app.
Qed.

Lemma first_two_tokens_agree a b :
  take 2 (tokens a) = take 2 (tokens b) →
  (well_formed a ↔ well_formed b) ∧ pair_of a = pair_of b.
Proof.
  unfold well_formed, pair_of.
  destruct (tokens a) as [|x [|y r]], (tokens b) as [|x' [|y' r']];
    simpl; intros [=]; subst; split; try done; split; lia.
Qed.

Lemma coords_agree nodes nodes' :
  Forall2 (λ a b, take 2 (tokens a) = take 2 (tokens b)) nodes nodes' →
  pair_of <$> kept nodes = pair_of <$> kept nodes'.
Proof.
  unfold kept. induction 1 as [|a b nodes nodes' Hab _ IH]; [done|].
  destruct (first_two_tokens_agree _ _ Hab) as [Hw Hp].
  destruct (decide (well_formed a)) as [Ha|Ha].
  - rewrite !filter_cons_True by tauto. by rewrite !fmap_cons, IH, Hp.
  - rewrite !filter_cons_False by tauto. done.
Qed.
End segments.

(** Splitting on the semicolon loses nothing: joining the segments with
    semicolons gives the NodeString back, no segment contains a semicolon,
    and there is one segment more than there are semicolons. *)
Theorem split_segments_faithful (s : string) :
  join ";" (split ";" s) = s
  ∧ Forall (λ node, count_char ";" node = 0%nat) (split ";" s)
  ∧ length (split ";" s) = S (count_char ";" s).
Proof.
  split_and!; [apply join_split|apply split_no_sep|apply length_split].
Qed.

(** The builder returns a LINESTRING exactly when the NodeString contains
    a semicolon, and a POINT exactly when it contains none, whatever the
    segments hold. *)
Theorem kind_by_semicolon (s : string) :
  ((∃ body, WKT_linestring_from_nodes s = Return (PStr ("LINESTRING(" +:+ body +:+ ")")))
   ↔ (0 < count_char ";" s)%nat)
  ∧ ((∃ body, WKT_linestring_from_nodes s = Return (PStr ("POINT(" +:+ body +:+ ")")))
     ↔ count_char ";" s = 0%nat).
Proof.
  rewrite WKT_linestring_from_nodes_eq. unfold kind_of. rewrite length_split.
  case_bool_decide as Hc; split; split.
  - intros _. lia.
  - intros _. by eexists.
  - intros [body [=]].
  - intros ?. lia.
  - intros [body [=]].
  - intros ?. lia.
  - intros _. lia.
  - intros _. by eexists.
Qed.

(** Two NodeStrings put together with a semicolon give the LINESTRING of
    the pairs of the first followed by the pairs of the second; a
    semicolon at the end adds no pair. *)
Theorem builder_concatenation (s1 s2 : string) :
  coords (s1 +:+ ";" +:+ s2) = coords s1 ++ coords s2
  ∧ WKT_linestring_from_nodes (s1 +:+ ";" +:+ s2)
    = Return (PStr ("LINESTRING(" +:+ pairs_text (coords s1 ++ coords s2) +:+ ")"))
  ∧ WKT_linestring_from_nodes (s1 +:+ ";")
    = Return (PStr ("LINESTRING(" +:+ pairs_text (coords s1) +:+ ")")).
Proof.
  assert (∀ s, WKT_linestring_from_nodes (s1 +:+ ";" +:+ s)
               = Return (PStr ("LINESTRING(" +:+ pairs_text (coords s1 ++ coords s) +:+ ")")))
    as Hcat.
  { intros s. rewrite WKT_linestring_from_nodes_eq. fold (coords (s1 +:+ ";" +:+ s)).
    rewrite coords_app. unfold kind_of.
    change (";" +:+ s) with (String ";" s). rewrite split_app, length_app.
    pose proof (length_split_pos ";" s1). pose proof (length_split_pos ";" s).
    by rewrite bool_decide_eq_true_2 by lia. }
  split_and!; [apply coords_app|apply Hcat|].
  specialize (Hcat ""). by rewrite app_nil_r in Hcat.
Qed.

(** The result depends on a NodeString only through the first two tokens
    of each of its segments: two NodeStrings whose segments agree on them,
    one by one, give the same result, whatever the whitespace around and
    between the tokens and whatever tokens follow the second. *)
Theorem builder_reads_first_two_tokens (s s' : string) :
  Forall2 (λ a b, take 2 (tokens a) = take 2 (tokens b)) (split ";" s) (split ";" s') →
  WKT_linestring_from_nodes s = WKT_linestring_from_nodes s'.
Proof.
  intros H. rewrite !WKT_linestring_from_nodes_eq.
  rewrite (coords_agree _ _ H). unfold kind_of.
  by rewrite (Forall2_length _ _ _ H).
Qed.

(** An instance: extra tokens, tabs and padding on one side only. *)
Lemma builder_reads_first_two_tokens_witness :
  WKT_linestring_from_nodes "1.0 2.0 99.0 0.5;x;3 4"
  = WKT_linestring_from_nodes "  1.0   2.0 ; x ;3 4 7".
Proof.
  apply builder_reads_first_two_tokens. vm_compute. repeat constructor.
Defined.

(** The [strip()] in front of [split()] changes nothing: the tokens of a
    segment are the whitespace-separated words of the segment as it is,
    each of them non-empty and free of whitespace. *)
Theorem strip_before_split_redundant (node : string) :
  tokens node = split_ws node ∧ Forall solid (tokens node).
Proof.
  unfold tokens. rewrite split_ws_strip. split; [done|].
  remember (split_ws node) as ts eqn:Hts. symmetry in Hts.
  revert node Hts. induction ts as [|t ts IH]; intros node Hts; [constructor|].
  destruct (split_ws_first _ _ _ Hts) as (pre & post & _ & _ & Ht & _ & Hrest).
  constructor; [done|]. by apply (IH post).
Qed.

(** ** Further properties of [main] *)

Section main_more.
Implicit Types (header row : list string) (rows : list (list string)).
Implicit Types (out : list record) (colindex : Z).

Lemma int_digits_raise acc us s e : int_digits acc us s = Raise e → e = ValueError.
Proof.
  revert acc us. induction s as [|c s IH]; intros acc us; simpl.
  - destruct us; congruence.
  - destruct (digit_value c); [apply IH|].
    destruct (decide (c = "_"%char)); [|congruence].
    destruct us; [congruence|apply IH].
Qed.

Lemma int_unsigned_raise s e : int_unsigned s = Raise e → e = ValueError.
Proof.
  destruct s as [|c s]; simpl; [congruence|].
  destruct (digit_value c); [apply int_digits_raise|congruence].
Qed.

(** [int] raises nothing but [ValueError]. *)
Lemma int_raise s e : int s = Raise e → e = ValueError.
Proof.
  unfold int. destruct (int_rskip (int_lskip s)) as [|c r];
    [apply int_unsigned_raise|].
  destruct (decide (c = "+"%char)) as [->|Hp]; [apply int_unsigned_raise|].
  destruct (decide (c = "-"%char)) as [->|Hm].
  - destruct (int_unsigned r) as [n|e'] eqn:E; [done|].
    cbn. intros [= <-]. by eapply int_unsigned_raise.
  - intros H. eapply (int_unsigned_raise (String c r)).
    destruct c as [[] [] [] [] [] [] [] []]; try exact H; done.
Qed.

Lemma list_index_raise header x e : list_index header x = Raise e → e = ValueError.
Proof.
  induction header as [|y header IH]; simpl; [congruence|].
  destruct (decide (y = x)); [done|].
  destruct (list_index header x); [done|]. cbn. intros [= <-]. by apply IH.
Qed.

Lemma colindex_of_raise column column_name header e :
  colindex_of column column_name header = Raise e → e = ValueError.
Proof.
  unfold colindex_of. destruct column as [[|c s]|]; try apply list_index_raise.
  destruct (int (String c s)) as [n|e'] eqn:E; [done|].
  cbn. intros [= <-]. by eapply int_raise.
Qed.

Lemma colindex_of_int column column_name header n :
  int column = Return n →
  colindex_of (Some column) column_name header = Return (n - 1).
Proof.
  intros Hint. unfold colindex_of. destruct column; [done|]. by rewrite Hint.
Qed.

Lemma colindex_of_name column column_name header :
  column = None ∨ column = Some "" →
  colindex_of column column_name header = list_index header column_name.
Proof. by intros [-> | ->]. Qed.

Lemma list_index_elem header x :
  x ∈ header → ∃ k, list_index header x = Return (Z.of_nat k).
Proof.
  induction header as [|y header IH]; [by intros ?%elem_of_nil|].
  intros Hin. simpl. destruct (decide (y = x)) as [->|Hne]; [by exists 0%nat|].
  apply elem_of_cons in Hin as [->|Hin]; [done|].
  destruct (IH Hin) as [k ->]. exists (S k). cbn. f_equal. lia.
Qed.

Lemma has_column_norm colindex row :
  has_column colindex row ↔ is_Some (norm_index (length row) colindex).
Proof.
  unfold has_column. destruct (norm_index (length row) colindex) as [k|] eqn:E.
  - split; [by eexists|]. intros _. apply norm_index_Some in E. lia.
  - apply norm_index_None in E. split; [done|]. by intros [? ?].
Qed.

(** Either every row has the column, or there is a first row without it. *)
Lemma rows_first_short colindex rows :
  Forall (has_column colindex) rows
  ∨ ∃ pre row post, rows = pre ++ row :: post
                    ∧ Forall (has_column colindex) pre ∧ ¬ has_column colindex row.
Proof.
  induction rows as [|row rows IH]; [by left|].
  destruct (decide (has_column colindex row)) as [Hrow|Hrow].
  - destruct IH as [Hall|(pre & r & post & -> & Hpre & Hr)].
    + left. by constructor.
    + right. exists (row :: pre), r, post. split_and!; [done| |done]. by constructor.
  - right. exists [], row, rows. by split_and!.
Qed.

Lemma has_column_is_Some colindex rows :
  Forall (has_column colindex) rows →
  Forall (λ row, is_Some (norm_index (length row) colindex)) rows.
Proof.
  intros H. eapply Forall_impl; [exact H|]. intros row. apply has_column_norm.
Qed.

Lemma not_has_column_None colindex row :
  ¬ has_column colindex row → norm_index (length row) colindex = None.
Proof. intros H. by apply norm_index_None. Qed.

Lemma row_written_no_None colindex row outrow :
  row_written colindex row outrow → Forall (λ v, v ≠ PNone) outrow.
Proof.
  intros (k & field & text & _ & _ & _ & ->).
  apply Forall_insert; [|done]. apply Forall_fmap, Forall_forall. by intros ? _.
Qed.

Lemma rows_written_no_None colindex rows outrows :
  Forall2 (row_written colindex) rows outrows →
  Forall (Forall (λ v, v ≠ PNone)) outrows.
Proof.
  induction 1 as [|row outrow ? ? Hrow _ IH]; [done|].
  constructor; [by eapply row_written_no_None|done].
Qed.

(** The loop keeps the written records free of [None]. *)
Lemma for_rows_no_None colindex rows out :
  Forall (Forall (λ v, v ≠ PNone)) out →
  Forall (Forall (λ v, v ≠ PNone)) (for_rows (row_step colindex) rows out).2.
Proof.
  intros Hout.
  destruct (rows_first_short colindex rows)
    as [Hall|(pre & row & post & -> & Hpre & Hrow)].
  - destruct (for_rows_in_range colindex rows out (has_column_is_Some _ _ Hall))
      as (outrows & Hrows & ->).
    apply Forall_app. split; [done|by eapply rows_written_no_None].
  - destruct (for_rows_short_row colindex pre row post out
                (has_column_is_Some _ _ Hpre) (not_has_column_None _ _ Hrow))
      as (outrows & Hrows & ->).
    apply Forall_app. split; [done|by eapply rows_written_no_None].
Qed.

Lemma row_written_position colindex row outrow :
  row_written colindex row outrow →
  ∃ k field text,
    (0 ≤ colindex ∧ colindex = Z.of_nat k
     ∨ colindex < 0 ∧ Z.of_nat k = Z.of_nat (length row) + colindex)
    ∧ row !! k = Some field
    ∧ WKT_linestring_from_nodes field = Return (PStr text)
    ∧ outrow = <[k:=PStr text]> (PStr <$> row).
Proof.
  intros (k & field & text & Hk & Hfield & Hwkt & ->).
  exists k, field, text. split_and!; try done.
  apply norm_index_Some in Hk. lia.
Qed.

(** What one step writes does not depend on what was written before. *)
Lemma row_step_frame colindex row out :
  row_step colindex row out
  = ((row_step colindex row []).1, out ++ (row_step colindex row []).2).
Proof.
  unfold row_step, mbind, writing_bind, lift, writerow.
  destruct (getitem row colindex); simpl; [|by rewrite app_nil_r].
  destruct (WKT_linestring_from_nodes _); simpl; [|by rewrite app_nil_r].
  destruct (setitem _ _ _); simpl; [done|by rewrite app_nil_r].
Qed.

Lemma for_rows_cons colindex row rows out :
  for_rows (row_step colindex) (row :: rows) out
  = match (row_step colindex row []).1 with
    | Return _ => for_rows (row_step colindex) rows (out ++ (row_step colindex row []).2)
    | Raise e => (Raise e, out ++ (row_step colindex row []).2)
    end.
Proof.
  simpl. unfold mbind, writing_bind at 1. rewrite row_step_frame.
  by destruct (row_step colindex row []).1.
Qed.

Lemma for_rows_frame colindex rows out :
  for_rows (row_step colindex) rows out
  = ((for_rows (row_step colindex) rows []).1,
     out ++ (for_rows (row_step colindex) rows []).2).
Proof.
  revert out. induction rows as [|row rows IH]; intros out.
  - simpl. by rewrite app_nil_r.
  - rewrite !for_rows_cons. destruct (row_step colindex row []).1; [|done].
    rewrite (IH (out ++ _)), (IH ([] ++ _)). simpl. by rewrite app_assoc.
Qed.

Lemma for_rows_app colindex rows1 rows2 out :
  for_rows (row_step colindex) (rows1 ++ rows2) out
  = match for_rows (row_step colindex) rows1 out with
    | (Return _, out') => for_rows (row_step colindex) rows2 out'
    | (Raise e, out') => (Raise e, out')
    end.
Proof.
  revert out. induction rows1 as [|row rows1 IH]; intros out; [done|].
  rewrite <- app_comm_cons, !for_rows_cons.
  destruct (row_step colindex row []).1; [apply IH|done].
Qed.
End main_more.

(** Once both files are open and reader and writer exist, so that the
    reader yields the records [infile], and failures of the files
    themselves aside, the rest of [main] (from [next(reader)] to the end
    of the row loop) ends in exactly one of four ways. On an input without
    a header it raises [StopIteration] and writes nothing. When the column
    does not resolve it raises [ValueError], the only exception resolution
    has, and writes nothing. Otherwise it writes the header and the rows
    in order, up to the first row that lacks the column, where it raises
    [IndexError], or up to the end, where it returns. *)
Theorem main_outcome (infile : list (list string)) (column : option string)
    (column_name : string) :
  match infile with
  | [] => main infile column column_name = (Raise StopIteration, [])
  | header :: rows =>
      match colindex_of column column_name header with
      | Raise e =>
          e = ValueError
          ∧ main infile column column_name = (Raise ValueError, [])
      | Return colindex =>
          ∃ n outrows,
            Forall2 (row_written colindex) (take n rows) outrows
            ∧ match rows !! n with
              | None =>
                  main infile column column_name
                  = (Return tt, (PStr <$> header) :: outrows)
              | Some row =>
                  ¬ has_column colindex row
                  ∧ main infile column column_name
                    = (Raise IndexError, (PStr <$> header) :: outrows)
              end
      end
  end.
Proof.
  destruct infile as [|header rows]; [done|]. rewrite main_cons.
  destruct (colindex_of column column_name header) as [colindex|e] eqn:Hcol.
  - destruct (rows_first_short colindex rows)
      as [Hall|(pre & row & post & -> & Hpre & Hrow)].
    + destruct (for_rows_in_range colindex rows [PStr <$> header]
                  (has_column_is_Some _ _ Hall)) as (outrows & Hrows & Hloop).
      exists (length rows), outrows.
      rewrite take_ge, lookup_ge_None_2 by lia. by split.
    + destruct (for_rows_short_row colindex pre row post [PStr <$> header]
                  (has_column_is_Some _ _ Hpre) (not_has_column_None _ _ Hrow))
        as (outrows & Hrows & Hloop).
      exists (length pre), outrows.
      rewrite take_app_length, list_lookup_middle by done. by split_and!.
  - apply colindex_of_raise in Hcol as ->. by split.
Qed.

(** Whatever the input and however the run ends, no field of a written
    record is [None]: each one is a string. *)
Theorem main_never_writes_None (infile : list (list string))
    (column : option string) (column_name : string) :
  Forall (Forall (λ v, v ≠ PNone)) (main infile column column_name).2.
Proof.
  destruct infile as [|header rows]; [constructor|]. rewrite main_cons.
  destruct (colindex_of column column_name header) as [colindex|e]; [|constructor].
  apply for_rows_no_None. constructor; [|constructor].
  apply Forall_fmap, Forall_forall. by intros ? _.
Qed.

(** A column given by name, when the name is a header field and no row is
    shorter than the header, makes [main] return: the position is that of
    the first header field equal to the name, and every row is written
    with the builder's text at that position. *)
Theorem main_by_name_succeeds (header : list string) (rows : list (list string))
    (column : option string) (column_name : string) :
  column = None ∨ column = Some "" →
  column_name ∈ header →
  Forall (λ row, (length header ≤ length row)%nat) rows →
  ∃ k outrows,
    header !! k = Some column_name
    ∧ (∀ j, (j < k)%nat → header !! j ≠ Some column_name)
    ∧ main (header :: rows) column column_name
      = (Return tt, (PStr <$> header) :: outrows)
    ∧ Forall2 (λ row outrow, ∃ field text,
         row !! k = Some field
         ∧ WKT_linestring_from_nodes field = Return (PStr text)
         ∧ outrow = <[k:=PStr text]> (PStr <$> row))
       rows outrows.
Proof.
  intros Hcol Hin Hlen.
  destruct (list_index_elem _ _ Hin) as [k0 Hidx].
  destruct (list_index_Return _ _ _ Hidx) as (k & Hk & Hlook & Hfirst).
  apply Nat2Z.inj in Hk as ->.
  pose proof (lookup_lt_Some _ _ _ Hlook) as Hlt.
  destruct (for_rows_in_range (Z.of_nat k) rows [PStr <$> header])
    as (outrows & Hrows & Hloop).
  { eapply Forall_impl; [exact Hlen|]. intros row Hrow. simpl in Hrow.
    rewrite norm_index_nonneg by lia. by eexists. }
  exists k, outrows. split_and!; [done|done| |].
  - by rewrite main_cons, colindex_of_name, Hidx.
  - eapply Forall2_impl; [exact Hrows|]. intros row outrow Hrow. simpl.
    destruct (row_written_position _ _ _ Hrow) as (k' & field & text & Hpos & ? & ? & ?).
    assert (k' = k) as -> by lia. by exists field, text.
Qed.

(** An instance: the name occurs twice in the header, one row is longer. *)
Lemma main_by_name_succeeds_witness :
  ∃ k outrows,
    ["id"; "trace"; "trace"] !! k = Some "trace"
    ∧ (∀ j, (j < k)%nat → ["id"; "trace"; "trace"] !! j ≠ Some "trace")
    ∧ main (["id"; "trace"; "trace"] :: [["7"; "1 2"; "3 4"]; ["8"; "5 6;7 8"; ""; "x"]])
           None "trace"
      = (Return tt, (PStr <$> ["id"; "trace"; "trace"]) :: outrows)
    ∧ Forall2 (λ row outrow, ∃ field text,
         row !! k = Some field
         ∧ WKT_linestring_from_nodes field = Return (PStr text)
         ∧ outrow = <[k:=PStr text]> (PStr <$> row))
       [["7"; "1 2"; "3 4"]; ["8"; "5 6;7 8"; ""; "x"]] outrows.
Proof.
  apply (main_by_name_succeeds ["id"; "trace"; "trace"]
           [["7"; "1 2"; "3 4"]; ["8"; "5 6;7 8"; ""; "x"]] None "trace").
  - left. reflexivity.
  - apply list_elem_of_further, list_elem_of_here.
  - repeat constructor.
Defined.

(** With a numeric column that parses as [n] and at least one data row,
    all rows having [C] fields, [main] returns exactly when
    [1 - C <= n <= C]: the numbers 1 to [C] count the fields from the
    left, and 0 down to [1 - C] are accepted too. *)
Theorem main_numeric_column_range (header row : list string)
    (rows : list (list string)) (column column_name : string) (n : Z) (C : nat) :
  int column = Return n →
  Forall (λ r, length r = C) (row :: rows) →
  (main (header :: row :: rows) (Some column) column_name).1 = Return tt
  ↔ 1 - Z.of_nat C ≤ n ≤ Z.of_nat C.
Proof.
  intros Hint Hlen. rewrite main_cons, (colindex_of_int _ _ _ _ Hint).
  split.
  - intros Hret. destruct (decide (has_column (n - 1) row)) as [Hrow|Hrow].
    + inversion_clear Hlen as [|? ? Hrowlen _]. unfold has_column in Hrow. lia.
    + destruct (for_rows_short_row (n - 1) [] row rows [PStr <$> header])
        as (outrows & _ & Hloop); [done|by apply not_has_column_None|].
      simpl app in Hloop. by rewrite Hloop in Hret.
  - intros Hrange.
    destruct (for_rows_in_range (n - 1) (row :: rows) [PStr <$> header])
      as (outrows & _ & Hloop); [|by rewrite Hloop].
    apply has_column_is_Some. eapply Forall_impl; [exact Hlen|].
    intros r Hr. simpl in Hr. unfold has_column. lia.
Qed.

(** An instance: column "0" on rows of two fields. *)
Lemma main_numeric_column_range_witness :
  (main (["id"; "trace"] :: ["7"; "1 2"] :: [["8"; "3 4"]]) (Some "0") "").1 = Return tt
  ↔ 1 - Z.of_nat 2 ≤ 0 ≤ Z.of_nat 2.
Proof.
  apply (main_numeric_column_range ["id"; "trace"] ["7"; "1 2"] [["8"; "3 4"]] "0" "" 0 2).
  - reflexivity.
  - repeat constructor.
Defined.

(** A numeric column that parses as [n <= 0] counts from the end of each
    row: when every row has at least [1 - n] fields, [main] returns, and
    in each row the field rewritten is the one [1 - n] places before the
    end, so that rows of different lengths are rewritten at different
    positions. *)
Theorem main_column_from_the_end (header : list string) (rows : list (list string))
    (column column_name : string) (n : Z) :
  int column = Return n →
  n ≤ 0 →
  Forall (λ row, 1 - n ≤ Z.of_nat (length row)) rows →
  ∃ outrows,
    main (header :: rows) (Some column) column_name
      = (Return tt, (PStr <$> header) :: outrows)
    ∧ Forall2 (λ row outrow, ∃ field text,
         row !! (length row - Z.to_nat (1 - n))%nat = Some field
         ∧ WKT_linestring_from_nodes field = Return (PStr text)
         ∧ outrow = <[(length row - Z.to_nat (1 - n))%nat:=PStr text]> (PStr <$> row))
       rows outrows.
Proof.
  intros Hint Hn Hlen. rewrite main_cons, (colindex_of_int _ _ _ _ Hint).
  destruct (for_rows_in_range (n - 1) rows [PStr <$> header])
    as (outrows & Hrows & Hloop).
  { apply has_column_is_Some. eapply Forall_impl; [exact Hlen|].
    intros row Hrow. simpl in Hrow. unfold has_column. lia. }
  exists outrows. split; [done|].
  eapply Forall2_impl; [exact Hrows|]. intros row outrow Hrow. simpl.
  destruct (row_written_position _ _ _ Hrow) as (k & field & text & Hpos & ? & ? & ?).
  assert (k = (length row - Z.to_nat (1 - n))%nat) as <- by lia.
  by exists field, text.
Qed.

(** An instance: column "0" on rows of two and of three fields. *)
Lemma main_column_from_the_end_witness :
  ∃ outrows,
    main (["id"; "trace"] :: [["7"; "1 2"]; ["8"; "x"; "3 4"]]) (Some "0") ""
      = (Return tt, (PStr <$> ["id"; "trace"]) :: outrows)
    ∧ Forall2 (λ row outrow, ∃ field text,
         row !! (length row - Z.to_nat (1 - 0))%nat = Some field
         ∧ WKT_linestring_from_nodes field = Return (PStr text)
         ∧ outrow = <[(length row - Z.to_nat (1 - 0))%nat:=PStr text]> (PStr <$> row))
       [["7"; "1 2"]; ["8"; "x"; "3 4"]] outrows.
Proof.
  apply (main_column_from_the_end ["id"; "trace"] [["7"; "1 2"]; ["8"; "x"; "3 4"]]
           "0" "" 0).
  - reflexivity.
  - reflexivity.
  - repeat constructor; simpl; lia.
Defined.

(** Rows are handled one by one and independently: when [main] returns on
    a first batch of rows, its run on that batch followed by a second
    batch ends as the run on the second batch alone ends, and writes what
    the first run wrote followed by the rows, without the header, that the
    run on the second batch writes. *)
Theorem main_streaming (header : list string) (rows1 rows2 : list (list string))
    (column : option string) (column_name : string) (out1 : list record) :
  main (header :: rows1) column column_name = (Return tt, out1) →
  main (header :: rows1 ++ rows2) column column_name
  = ((main (header :: rows2) column column_name).1,
     out1 ++ drop 1 (main (header :: rows2) column column_name).2).
Proof.
  rewrite !main_cons.
  destruct (colindex_of column column_name header) as [colindex|e]; [|done].
  intros H1. rewrite for_rows_app, H1, for_rows_frame.
  by rewrite (for_rows_frame _ rows2 [PStr <$> header]).
Qed.

(** An instance: the second batch stops at a row of one field. *)
Lemma main_streaming_witness :
  main (["id"; "trace"] :: [["7"; "1 2"]] ++ [["8"; "3 4;5 6"]; ["9"]; ["10"; "7 8"]])
       None "trace"
  = ((main (["id"; "trace"] :: [["8"; "3 4;5 6"]; ["9"]; ["10"; "7 8"]]) None "trace").1,
     [[PStr "id"; PStr "trace"]; [PStr "7"; PStr "POINT(2 1)"]]
     ++ drop 1 (main (["id"; "trace"] :: [["8"; "3 4;5 6"]; ["9"]; ["10"; "7 8"]])
                     None "trace").2).
Proof.
  apply (main_streaming ["id"; "trace"] [["7"; "1 2"]]
           [["8"; "3 4;5 6"]; ["9"]; ["10"; "7 8"]] None "trace").
  reflexivity.
Defined.

(** [processAlgorithm] resolves the column by name only: it returns only
    when the column parameter is, as it stands, one of the header fields,
    and otherwise ends with [ValueError] or [StopIteration] before
    anything is written or, the name found, with the [IndexError] of a
    short row. *)
Theorem processAlgorithm_by_name_only (infile : list (list string)) (column : string) :
  ((processAlgorithm infile column).1 = Return tt →
   ∃ header rows, infile = header :: rows ∧ column ∈ header)
  ∧ (∀ header rows, infile = header :: rows → column ∉ header →
       processAlgorithm infile column = (Raise ValueError, [])).
Proof.
  unfold processAlgorithm. split.
  - destruct infile as [|header rows]; [done|]. rewrite main_cons.
    intros Hret. exists header, rows. split; [done|].
    destruct (decide (column ∈ header)) as [|Hnot]; [done|].
    rewrite (colindex_of_name None) in Hret by auto.
    by rewrite list_index_missing in Hret.
  - intros header rows -> Hnot. rewrite main_cons, (colindex_of_name None) by auto.
    by rewrite list_index_missing.
Qed.

(** An instance: the column "2" against a header without a field "2". *)
Lemma processAlgorithm_by_name_only_witness :
  processAlgorithm [["id"; "trace"]; ["7"; "1 2"]] "2" = (Raise ValueError, []).
Proof.
  apply (proj2 (processAlgorithm_by_name_only [["id"; "trace"]; ["7"; "1 2"]] "2")
           ["id"; "trace"] [["7"; "1 2"]] eq_refl).
  intros Hin. inversion Hin as [|? ? ? Hin']; subst.
  inversion Hin' as [|? ? ? Hin'']; subst. inversion Hin''.
Defined.

(** ** The output file name *)

Lemma length_app_str (s w : string) :
  String.length (s +:+ w) = (String.length s + String.length w)%nat.
Proof. induction s as [|c s IH]; [done|]. rewrite app_cons. simpl. by rewrite IH. Qed.

(** Without an [output] argument, or with an empty one, the output file is
    named after the input file with "__results.csv" appended, which is
    never the name of the input file itself; a non-empty [output] is used
    as it is. *)
Theorem outfile_name_default (infile : string) :
  outfile_name infile None = infile +:+ "__results.csv"
  ∧ outfile_name infile (Some "") = infile +:+ "__results.csv"
  ∧ outfile_name infile None ≠ infile
  ∧ (∀ output, output ≠ "" → outfile_name infile (Some output) = output).
Proof.
  split_and!; [done|done| |].
  - intros H. apply (f_equal String.length) in H.
    unfold outfile_name in H. rewrite length_app_str in H. simpl in H. lia.
  - intros output Hne. by destruct output.
Qed.
